(** * The FP/EDF scheduling policy of [fp_edf_scheduler.py]

    A shallow embedding of the SimSo scheduler class [fp_edf_scheduler]
    (methods [init], [on_activate], [on_terminated], [schedule]) and the
    properties of its ready list and of its dispatch decision. *)

From stdpp Require Import gmap strings list.
From Stdlib Require Import ZArith.

Local Open Scope Z_scope.

(** ** Data *)

(** A processor handle of the host. *)
Definition Cpu := nat.

(** A job object.  [jid] stands for the identity of the Python object
    (jobs define no [__eq__], so [==] is identity); [data] is the task's
    data bag read as [job.data['priority']]; time values are integers. *)
Record Job := mkJob {
  jid : nat;
  data : gmap string Z;
  absolute_deadline : Z;
  cpu : Cpu
}.

(** The exceptions the modelled code can raise. *)
Inductive Exn :=
| KeyError (key : string)
| ValueError (msg : string).

(** Records handed to the [logging] module. *)
Inductive LogRecord :=
| debug (msg : string)
| error (fmt : string) (arg : Z).

(** The scheduler object together with what it sends to the host:
    the [resched] calls on processors and the log. *)
Record Sched := mkSched {
  ready_list : list Job;
  resched_calls : list Cpu;
  log : list LogRecord
}.

(** What [schedule] returns: Python's [None], or a couple [(job, cpu)]
    whose job may itself be [None]. *)
Definition Decision := option (option Job * Cpu).

(** ** A state and exception monad for the methods *)

Inductive Outcome (A : Type) :=
| Return (a : A) (s : Sched)
| Raise (e : Exn) (s : Sched).
Arguments Return {A} a s.
Arguments Raise {A} e s.

Definition M (A : Type) : Type := Sched -> Outcome A.

Definition final_state {A} (o : Outcome A) : Sched :=
  match o with Return _ s => s | Raise _ s => s end.

Definition returned {A} (o : Outcome A) : option A :=
  match o with Return a _ => Some a | Raise _ _ => None end.

#[global] Instance M_ret : MRet M := fun A a s => Return a s.

#[global] Instance M_bind : MBind M := fun A B f m s =>
  match m s with
  | Return a s' => f a s'
  | Raise e s' => Raise e s'
  end.

Definition raise {A} (e : Exn) : M A := fun s => Raise e s.

Definition lift {A} (r : Exn + A) : M A :=
  match r with inl e => raise e | inr a => mret a end.

Definition get_ready_list : M (list Job) := fun s => Return (ready_list s) s.

Definition set_ready_list (l : list Job) : M unit := fun s =>
  Return tt {| ready_list := l; resched_calls := resched_calls s; log := log s |}.

(** [c.resched()] *)
Definition resched (c : Cpu) : M unit := fun s =>
  Return tt {| ready_list := ready_list s;
               resched_calls := resched_calls s ++ [c];
               log := log s |}.

Definition log_append (r : LogRecord) (s : Sched) : Sched :=
  {| ready_list := ready_list s;
     resched_calls := resched_calls s;
     log := log s ++ [r] |}.

(** [logging.debug(...)] and [logging.error(...)] *)
Definition logging (r : LogRecord) : M unit := fun s =>
  Return tt (log_append r s).

(** ** Python built-ins used by the scheduler *)

(** [x is y] on job objects. *)
Definition same_job (x y : Job) : bool := Nat.eqb (jid x) (jid y).

(** [list.remove(job)]: drops the first occurrence, [ValueError] if there
    is none. *)
Fixpoint remove (job : Job) (l : list Job) : Exn + list Job :=
  match l with
  | [] => inl (ValueError "list.remove(x): x not in list")
  | x :: xs =>
      if same_job x job then inr xs
      else match remove job xs with
           | inl e => inl e
           | inr xs' => inr (x :: xs')
           end
  end.

(** The loop of [min(iterable, key=...)]: the running best is replaced only
    by an item whose key is strictly smaller. *)
Fixpoint min_loop (key : Job -> Exn + Z) (it : list Job)
    (best : Job) (best_key : Z) : Exn + Job :=
  match it with
  | [] => inr best
  | y :: ys =>
      match key y with
      | inl e => inl e
      | inr ky =>
          if ky <? best_key then min_loop key ys y ky
          else min_loop key ys best best_key
      end
  end.

Definition min (l : list Job) (key : Job -> Exn + Z) : Exn + Job :=
  match l with
  | [] => inl (ValueError "min() arg is an empty sequence")
  | x :: xs =>
      match key x with
      | inl e => inl e
      | inr kx => min_loop key xs x kx
      end
  end.

(** ** The scheduler *)

(** [lambda x: x.data['priority']] *)
Definition priority (x : Job) : Exn + Z :=
  match data x !! "priority" with
  | Some p => inr p
  | None => inl (KeyError "priority")
  end.

(** [lambda x: x.absolute_deadline] *)
Definition deadline (x : Job) : Exn + Z := inr (absolute_deadline x).

Definition invalid_priority_fmt : string :=
  "fp_edf_scheduler.py/fp_edf_scheduler/schedule(): {0:d} is not a valid priority value!".

Definition init : M unit := set_ready_list [].

Definition on_activate (job : Job) : M unit :=
  l ← get_ready_list;
  set_ready_list (l ++ [job]);;
  resched (cpu job).

Definition on_terminated (job : Job) : M unit :=
  l ← get_ready_list;
  l' ← lift (remove job l);
  set_ready_list l';;
  resched (cpu job).

Definition schedule (c : Cpu) : M Decision :=
  l ← get_ready_list;
  match l with
  | _ :: _ =>
      m ← lift (min l priority);
      prio_low ← lift (priority m);
      if (1 <=? prio_low) && (prio_low <? 127) then
        logging (debug "FP-algorithm!");;
        job ← lift (min l priority);
        mret (Some (Some job, c))
      else if prio_low =? 127 then
        logging (debug "EDF-algorithm!");;
        job ← lift (min l deadline);
        mret (Some (Some job, c))
      else
        logging (error invalid_priority_fmt prio_low);;
        mret None
  | [] => mret (Some (None, c))
  end.

(** [n] successive [schedule] calls with no activation or termination in
    between, collecting the decisions. *)
Fixpoint schedule_repeat (n : nat) (c : Cpu) : M (list Decision) :=
  match n with
  | O => mret []
  | S n' =>
      d ← schedule c;
      ds ← schedule_repeat n' c;
      mret (d :: ds)
  end.

(** ** Sample jobs *)

Definition task_data (p : Z) : gmap string Z := {[ "priority" := p ]}.

Definition cpu0 : Cpu := O.

Definition job_A : Job := mkJob 1%nat (task_data 5) 40 cpu0.
Definition job_B : Job := mkJob 2%nat (task_data 5) 30 cpu0.
Definition job_C : Job := mkJob 3%nat (task_data 127) 10 cpu0.
Definition job_D : Job := mkJob 4%nat (task_data 127) 20 cpu0.
Definition job_E : Job := mkJob 5%nat (task_data 127) 15 cpu0.
Definition job_F : Job := mkJob 6%nat (task_data 0) 50 cpu0.
Definition job_G : Job := mkJob 7%nat (task_data 127) 15 cpu0.

Definition ready (l : list Job) : Sched := mkSched l [] [].

(** ** Specification vocabulary *)

Section least.
Variable key : Job -> Exn + Z.

Definition key_defined (x : Job) : Prop := ∃ kx, key x = inr kx.
Definition key_gt (k : Z) (x : Job) : Prop := ∃ kx, key x = inr kx ∧ k < kx.
Definition key_ge (k : Z) (x : Job) : Prop := ∃ kx, key x = inr kx ∧ k ≤ kx.

(** [m] has the least key [k] of [l] and is the earliest item of [l]
    with that key: everything before it has a strictly larger key. *)
Definition first_least (l : list Job) (m : Job) (k : Z) : Prop :=
  ∃ l1 l2, l = l1 ++ m :: l2 ∧ key m = inr k ∧
           Forall (key_gt k) l1 ∧ Forall (key_ge k) l2.
End least.

(** The priority of [x] is present and lies in [lo, hi]. *)
Definition priority_in (lo hi : Z) (x : Job) : Prop :=
  ∃ p, data x !! "priority" = Some p ∧ lo ≤ p ≤ hi.

(** The job of a decision, without the processor it is paired with. *)
Definition decision_job (d : Decision) : option (option Job) := fst <$> d.

(** The five ways a call [schedule c] on state [s] can end. *)
Inductive schedule_outcome (s : Sched) (c : Cpu) : Outcome Decision → Prop :=
| sched_idle :
    ready_list s = [] →
    schedule_outcome s c (Return (Some (None, c)) s)
| sched_key_error x :
    x ∈ ready_list s → data x !! "priority" = None →
    schedule_outcome s c (Raise (KeyError "priority") s)
| sched_fp m p :
    first_least priority (ready_list s) m p → 1 ≤ p ≤ 126 →
    schedule_outcome s c
      (Return (Some (Some m, c)) (log_append (debug "FP-algorithm!") s))
| sched_edf m j d :
    first_least priority (ready_list s) m 127 →
    first_least deadline (ready_list s) j d →
    schedule_outcome s c
      (Return (Some (Some j, c)) (log_append (debug "EDF-algorithm!") s))
| sched_invalid m p :
    first_least priority (ready_list s) m p → p ≤ 0 ∨ 127 < p →
    schedule_outcome s c
      (Return None (log_append (error invalid_priority_fmt p) s)).

(** More sample jobs: a priority above 127, and a data bag without the
    priority field. *)
Definition job_H : Job := mkJob 8%nat (task_data 200) 5 cpu0.
Definition job_N : Job := mkJob 9%nat ∅ 60 cpu0.
Definition cpu1 : Cpu := 1%nat.

(** ** The scenarios of the specification, evaluated *)

Example schedule_ABC :
  returned (schedule cpu0 (ready [job_A; job_B; job_C])) = Some (Some (Some job_A, cpu0)).
Proof. vm_compute. reflexivity. Qed.

Example schedule_DE :
  returned (schedule cpu0 (ready [job_D; job_E])) = Some (Some (Some job_E, cpu0)).
Proof. vm_compute. reflexivity. Qed.

(** Equal deadlines under EDF: the job activated first is kept. *)
Example schedule_EG :
  returned (schedule cpu0 (ready [job_D; job_E; job_G])) = Some (Some (Some job_E, cpu0)).
Proof. vm_compute. reflexivity. Qed.

Example schedule_F :
  schedule cpu0 (ready [job_F])
  = Return None (mkSched [job_F] [] [error invalid_priority_fmt 0]).
Proof. vm_compute. reflexivity. Qed.

(** ** The built-in [min] returns the first item of least key *)

Section min_facts.
Variable key : Job -> Exn + Z.

Lemma key_gt_ge k x : key_gt key k x → key_ge key k x.
Proof. intros (kx & Hx & Hlt). exists kx. split; [done | lia]. Qed.

Lemma key_ge_trans k k' x : k ≤ k' → key_ge key k' x → key_ge key k x.
Proof. intros Hle (kx & Hx & Hk). exists kx. split; [done | lia]. Qed.

Lemma key_ge_gt_trans k k' x : k < k' → key_ge key k' x → key_gt key k x.
Proof. intros Hlt (kx & Hx & Hk). exists kx. split; [done | lia]. Qed.

Lemma min_loop_keep it best bk :
  Forall (key_ge key bk) it → min_loop key it best bk = inr best.
Proof.
  induction 1 as [|y ys (ky & Hy & Hle) _ IH]; simpl; [done|].
  rewrite Hy. destruct (Z.ltb_spec ky bk); [lia | exact IH].
Qed.

Lemma min_loop_later l1 l2 m k best bk :
  key m = inr k → k < bk →
  Forall (key_gt key k) l1 → Forall (key_ge key k) l2 →
  min_loop key (l1 ++ m :: l2) best bk = inr m.
Proof.
  intros Hm Hlt H1 H2. revert best bk Hlt.
  induction H1 as [|y ys (ky & Hy & Hgt) _ IH]; intros best bk Hlt; simpl.
  - rewrite Hm. destruct (Z.ltb_spec k bk); [|lia].
    by apply min_loop_keep.
  - rewrite Hy. destruct (Z.ltb_spec ky bk); apply IH; lia.
Qed.

Lemma min_first_least l m k :
  first_least key l m k → min l key = inr m.
Proof.
  intros (l1 & l2 & -> & Hm & H1 & H2).
  destruct H1 as [|y ys (ky & Hy & Hgt) H1]; simpl.
  - rewrite Hm. by apply min_loop_keep.
  - rewrite Hy. by apply (min_loop_later ys l2 m k).
Qed.

Lemma first_least_exists l :
  l ≠ [] → Forall (key_defined key) l → ∃ m k, first_least key l m k.
Proof.
  intros Hne Hall. induction Hall as [|x xs (kx & Hx) Hxs IH]; [done|].
  destruct xs as [|x' xs'].
  { exists x, kx, [], []. by repeat split. }
  destruct IH as (m & k & l1 & l2 & Heq & Hm & H1 & H2); [done|].
  destruct (Z.le_gt_cases kx k) as [Hle|Hgt].
  - exists x, kx, [], (x' :: xs'). repeat split; [done|constructor|].
    rewrite Heq. apply Forall_app. split.
    + eapply Forall_impl; [exact H1|]. intros y Hy.
      apply (key_ge_trans kx k); [exact Hle|]. by apply key_gt_ge.
    + constructor; [by exists k|].
      eapply Forall_impl; [exact H2|]. intros y Hy.
      by apply (key_ge_trans kx k).
  - exists m, k, (x :: l1), l2. rewrite Heq. repeat split; [done| |done].
    constructor; [|done]. exists kx. split; [done | lia].
Qed.

Lemma min_loop_inr_defined it best bk m :
  min_loop key it best bk = inr m → Forall (key_defined key) it.
Proof.
  revert best bk. induction it as [|y ys IH]; intros best bk Hmin; [done|].
  simpl in Hmin. destruct (key y) as [e|ky] eqn:Hy; [done|].
  constructor; [by exists ky|].
  destruct (ky <? bk); by eapply IH.
Qed.

Lemma min_inr_defined l m :
  min l key = inr m → Forall (key_defined key) l.
Proof.
  destruct l as [|x xs]; [done|]. simpl.
  destruct (key x) as [e|kx] eqn:Hx; [done|]. intros Hmin.
  constructor; [by exists kx | by eapply min_loop_inr_defined].
Qed.

Lemma min_inr_first_least l m :
  min l key = inr m → ∃ k, first_least key l m k.
Proof.
  intros Hmin.
  destruct (first_least_exists l) as (m' & k & Hm').
  { intros ->. done. }
  { by eapply min_inr_defined. }
  exists k. pose proof (min_first_least _ _ _ Hm') as Hmin'.
  by replace m with m' by congruence.
Qed.

Lemma first_least_elem l m k : first_least key l m k → m ∈ l.
Proof. intros (l1 & l2 & -> & _). set_solver. Qed.

Lemma first_least_key l m k : first_least key l m k → key m = inr k.
Proof. by intros (l1 & l2 & _ & Hm & _). Qed.

Lemma first_least_lower_bound l m k x :
  first_least key l m k → x ∈ l → key_ge key k x.
Proof.
  intros (l1 & l2 & -> & Hm & H1 & H2) Hx.
  apply elem_of_app in Hx as [Hx|Hx].
  - apply key_gt_ge. by eapply Forall_forall in H1.
  - apply elem_of_cons in Hx as [->|Hx].
    + exists k. split; [done | lia].
    + by eapply Forall_forall in H2.
Qed.

Lemma first_least_nonempty l m k : first_least key l m k → l ≠ [].
Proof. intros (l1 & l2 & -> & _). by destruct l1. Qed.
End min_facts.

(** ** Running the methods *)

Ltac run :=
  unfold mbind, M_bind, mret, M_ret, lift, raise, get_ready_list,
    set_ready_list, resched, logging; simpl.

Lemma priority_inr x p : priority x = inr p ↔ data x !! "priority" = Some p.
Proof. unfold priority. destruct (data x !! "priority"); naive_solver. Qed.

Lemma priority_in_defined lo hi x : priority_in lo hi x → key_defined priority x.
Proof. intros (p & Hp & _). exists p. by apply priority_inr. Qed.

Lemma priority_in_ge lo hi x : priority_in lo hi x → key_ge priority lo x.
Proof. intros (p & Hp & Hlo & _). exists p. split; [by apply priority_inr | done]. Qed.

(** The three branches of [schedule] on a non-empty ready list, by the
    least priority [p] found in it. *)
Lemma schedule_fp_branch s c m p :
  first_least priority (ready_list s) m p → 1 ≤ p < 127 →
  schedule c s = Return (Some (Some m, c)) (log_append (debug "FP-algorithm!") s).
Proof.
  intros Hm Hp. unfold schedule. run.
  pose proof (first_least_nonempty _ _ _ _ Hm) as Hne.
  pose proof (min_first_least _ _ _ _ Hm) as Hmin.
  pose proof (first_least_key _ _ _ _ Hm) as Hkey.
  destruct (ready_list s) as [|x xs] eqn:Hl; [done|].
  rewrite Hmin. simpl. rewrite Hkey. simpl.
  destruct (Z.leb_spec 1 p); [|lia]. destruct (Z.ltb_spec p 127); [|lia].
  by simpl.
Qed.

Lemma schedule_edf_branch s c m j d :
  first_least priority (ready_list s) m 127 →
  first_least deadline (ready_list s) j d →
  schedule c s = Return (Some (Some j, c)) (log_append (debug "EDF-algorithm!") s).
Proof.
  intros Hm Hj. unfold schedule. run.
  pose proof (first_least_nonempty _ _ _ _ Hm) as Hne.
  pose proof (min_first_least _ _ _ _ Hm) as Hmin.
  pose proof (first_least_key _ _ _ _ Hm) as Hkey.
  pose proof (min_first_least _ _ _ _ Hj) as Hdl.
  destruct (ready_list s) as [|x xs] eqn:Hl; [done|].
  rewrite Hmin, Hdl. simpl. by rewrite Hkey.
Qed.

Lemma schedule_invalid_branch s c m p :
  first_least priority (ready_list s) m p → p ≤ 0 ∨ 127 < p →
  schedule c s = Return None (log_append (error invalid_priority_fmt p) s).
Proof.
  intros Hm Hp. unfold schedule. run.
  pose proof (first_least_nonempty _ _ _ _ Hm) as Hne.
  pose proof (min_first_least _ _ _ _ Hm) as Hmin.
  pose proof (first_least_key _ _ _ _ Hm) as Hkey.
  destruct (ready_list s) as [|x xs] eqn:Hl; [done|].
  rewrite Hmin. simpl. rewrite Hkey. simpl.
  destruct (Z.eqb_spec p 127); [lia|].
  destruct (Z.leb_spec 1 p), (Z.ltb_spec p 127); simpl; try done; lia.
Qed.

Lemma schedule_nil_branch s c :
  ready_list s = [] → schedule c s = Return (Some (None, c)) s.
Proof. intros Hl. unfold schedule. run. by rewrite Hl. Qed.

Lemma deadline_defined l : Forall (key_defined deadline) l.
Proof. apply Forall_forall. intros x _. by exists (absolute_deadline x). Qed.

(** ** The dispatch decision *)

(** C1: on a non-empty ready list whose jobs all have a priority in
    [1,126], [schedule] returns a decision [(job, cpu)] for a ready job
    whose priority value is the least one: no ready job has a strictly
    smaller priority value. *)
Theorem schedule_fp_least_priority (s : Sched) (c : Cpu) :
  ready_list s ≠ [] →
  Forall (priority_in 1 126) (ready_list s) →
  ∃ j p s',
    schedule c s = Return (Some (Some j, c)) s' ∧
    j ∈ ready_list s ∧
    data j !! "priority" = Some p ∧
    ∀ x q, x ∈ ready_list s → data x !! "priority" = Some q → p ≤ q.
Proof.
  intros Hne Hall.
  destruct (first_least_exists priority (ready_list s)) as (j & p & Hj);
    [done | by eapply Forall_impl, priority_in_defined |].
  pose proof (first_least_elem _ _ _ _ Hj) as Hin.
  pose proof (first_least_key _ _ _ _ Hj) as Hkey.
  apply priority_inr in Hkey.
  assert (1 ≤ p < 127) as Hp.
  { eapply Forall_forall in Hall as (p' & Hp' & ?); [|exact Hin].
    simplify_eq. lia. }
  exists j, p, (log_append (debug "FP-algorithm!") s).
  split; [by apply schedule_fp_branch with p|].
  repeat split; [done..|].
  intros x q Hx Hq.
  destruct (first_least_lower_bound _ _ _ _ x Hj Hx) as (q' & Hq' & Hle).
  apply priority_inr in Hq'. by simplify_eq.
Qed.

Lemma schedule_fp_least_priority_witness :
  ∃ j p s',
    schedule cpu0 (ready [job_A; job_B]) = Return (Some (Some j, cpu0)) s' ∧
    j ∈ [job_A; job_B] ∧
    data j !! "priority" = Some p ∧
    ∀ x q, x ∈ [job_A; job_B] → data x !! "priority" = Some q → p ≤ q.
Proof.
  apply (schedule_fp_least_priority (ready [job_A; job_B]) cpu0).
  - simpl. discriminate.
  - simpl. repeat constructor; exists 5; (split; [reflexivity | lia]).
Defined.

(** C2: on a non-empty ready list whose jobs all have priority exactly
    127, [schedule] returns a decision [(job, cpu)] for a ready job whose
    absolute deadline is the least one among the ready jobs. *)
Theorem schedule_edf_least_deadline (s : Sched) (c : Cpu) :
  ready_list s ≠ [] →
  Forall (priority_in 127 127) (ready_list s) →
  ∃ j s',
    schedule c s = Return (Some (Some j, c)) s' ∧
    j ∈ ready_list s ∧
    ∀ x, x ∈ ready_list s → absolute_deadline j ≤ absolute_deadline x.
Proof.
  intros Hne Hall.
  destruct (first_least_exists priority (ready_list s)) as (m & p & Hm);
    [done | by eapply Forall_impl, priority_in_defined |].
  assert (p = 127) as ->.
  { pose proof (first_least_elem _ _ _ _ Hm) as Hin.
    pose proof (first_least_key _ _ _ _ Hm) as Hkey.
    apply priority_inr in Hkey.
    eapply Forall_forall in Hall as (p' & Hp' & ?); [|exact Hin].
    simplify_eq. lia. }
  destruct (first_least_exists deadline (ready_list s)) as (j & d & Hj);
    [done | apply deadline_defined |].
  exists j, (log_append (debug "EDF-algorithm!") s).
  split; [by apply schedule_edf_branch with m d|].
  split; [by eapply first_least_elem|].
  intros x Hx.
  pose proof (first_least_key _ _ _ _ Hj) as Hkey.
  destruct (first_least_lower_bound _ _ _ _ x Hj Hx) as (q & Hq & Hle).
  unfold deadline in *. by simplify_eq.
Qed.

Lemma schedule_edf_least_deadline_witness :
  ∃ j s',
    schedule cpu0 (ready [job_D; job_E]) = Return (Some (Some j, cpu0)) s' ∧
    j ∈ [job_D; job_E] ∧
    ∀ x, x ∈ [job_D; job_E] → absolute_deadline j ≤ absolute_deadline x.
Proof.
  apply (schedule_edf_least_deadline (ready [job_D; job_E]) cpu0).
  - simpl. discriminate.
  - simpl. repeat constructor; exists 127; (split; [reflexivity | lia]).
Defined.

(** C3, as the code has it: when the least priority value [p] of the ready
    list lies outside [1,127], [schedule] raises nothing, logs the
    invalid-priority error carrying [p], and returns [None], which is no
    decision at all rather than the couple [(None, cpu)]. *)
Theorem schedule_invalid_priority_returns_None
    (s : Sched) (c : Cpu) (j : Job) (p : Z) :
  j ∈ ready_list s →
  data j !! "priority" = Some p →
  p ≤ 0 ∨ 127 < p →
  (∀ x, x ∈ ready_list s → ∃ q, data x !! "priority" = Some q ∧ p ≤ q) →
  schedule c s = Return None (log_append (error invalid_priority_fmt p) s).
Proof.
  intros Hin Hp Hout Hleast.
  destruct (first_least_exists priority (ready_list s)) as (m & k & Hm).
  { intros Hnil. rewrite Hnil in Hin. by apply elem_of_nil in Hin. }
  { apply Forall_forall. intros x Hx.
    destruct (Hleast x Hx) as (q & Hq & _). exists q. by apply priority_inr. }
  assert (k = p) as ->.
  { destruct (first_least_lower_bound _ _ _ _ j Hm Hin) as (p' & Hp' & Hle).
    apply priority_inr in Hp'.
    destruct (Hleast m (first_least_elem _ _ _ _ Hm)) as (k' & Hk' & Hle').
    apply first_least_key, priority_inr in Hm. simplify_eq. lia. }
  by apply schedule_invalid_branch with m.
Qed.

Lemma schedule_invalid_priority_returns_None_witness :
  schedule cpu0 (ready [job_F])
  = Return None (log_append (error invalid_priority_fmt 0) (ready [job_F])).
Proof.
  apply (schedule_invalid_priority_returns_None (ready [job_F]) cpu0 job_F 0).
  - simpl. apply list_elem_of_singleton. reflexivity.
  - reflexivity.
  - left. lia.
  - simpl. intros x Hx. apply list_elem_of_singleton in Hx as ->.
    exists 0. split; [reflexivity | lia].
Defined.

(** C3, as stated, fails: with the single ready job [job_F] of default
    priority 0, [schedule] does not return the decision [(None, cpu)]. *)
Lemma schedule_invalid_priority_not_a_couple :
  ¬ ∃ s', schedule cpu0 (ready [job_F]) = Return (Some (None, cpu0)) s'.
Proof. intros [s' Hs']. vm_compute in Hs'. discriminate Hs'. Qed.

(** C4: on an empty ready list [schedule] returns the decision
    [(None, cpu)] for every processor; it raises nothing and leaves the
    state, log included, as it was. *)
Theorem schedule_empty (s : Sched) (c : Cpu) :
  ready_list s = [] →
  schedule c s = Return (Some (None, c)) s.
Proof. apply schedule_nil_branch. Qed.

Lemma schedule_empty_witness :
  schedule cpu0 (ready []) = Return (Some (None, cpu0)) (ready []).
Proof. apply (schedule_empty (ready []) cpu0). reflexivity. Defined.

(** Every call of [schedule] falls in one of three cases: the ready list is
    empty, a key lookup raised, or the ready list has a first job of least
    priority. *)
Lemma schedule_cases (s : Sched) (c : Cpu) :
  ready_list s = [] ∨
  (∃ e, schedule c s = Raise e s) ∨
  (∃ m p, first_least priority (ready_list s) m p).
Proof.
  destruct (ready_list s) as [|x xs] eqn:Hl; [by left|right].
  destruct (min (x :: xs) priority) as [e|m] eqn:Hmin.
  - left. exists e. unfold schedule. run. by rewrite Hl, Hmin.
  - right. exists m. by apply min_inr_first_least.
Qed.

(** Whatever [schedule] does, it leaves the ready list and the [resched]
    calls as they were. *)
Lemma schedule_frame (s : Sched) (c : Cpu) :
  ready_list (final_state (schedule c s)) = ready_list s ∧
  resched_calls (final_state (schedule c s)) = resched_calls s.
Proof.
  destruct (schedule_cases s c) as [Hnil|[(e & He)|(m & p & Hm)]].
  - by rewrite schedule_nil_branch.
  - by rewrite He.
  - destruct (decide (1 ≤ p < 127)) as [Hfp|Hnfp].
    { by rewrite (schedule_fp_branch s c m p). }
    destruct (decide (p = 127)) as [->|Hne].
    { destruct (first_least_exists deadline (ready_list s)) as (j & d & Hj);
        [by eapply first_least_nonempty | apply deadline_defined |].
      by rewrite (schedule_edf_branch s c m j d). }
    rewrite (schedule_invalid_branch s c m p); [done..|lia].
Qed.

(** Successive [schedule] calls repeat a decision that depends on the
    ready list alone. *)
Lemma schedule_repeat_stable (l : list Job) (c : Cpu) (d : Decision) (n : nat) :
  (∀ s, ready_list s = l → returned (schedule c s) = Some d) →
  ∀ s, ready_list s = l →
       returned (schedule_repeat n c s) = Some (replicate n d).
Proof.
  intros Hd. induction n as [|n IH]; intros s Hl; [done|].
  simpl. run.
  pose proof (Hd s Hl) as Hret.
  pose proof (proj1 (schedule_frame s c)) as Hframe.
  destruct (schedule c s) as [d' s'|e s']; [|done].
  simpl in *. simplify_eq.
  assert (ready_list s' = ready_list s) as Hl' by done.
  specialize (IH s' Hl').
  destruct (schedule_repeat n c s') as [ds s''|e s'']; [|done].
  simpl in *. by simplify_eq.
Qed.

(** The earliest of the tied jobs is dispatched, in either regime. *)
Lemma schedule_first_least (s : Sched) (c : Cpu) (j : Job) :
  (∃ p, 1 ≤ p ≤ 126 ∧ first_least priority (ready_list s) j p) ∨
  (∃ m d, first_least priority (ready_list s) m 127 ∧
          first_least deadline (ready_list s) j d) →
  returned (schedule c s) = Some (Some (Some j, c)).
Proof.
  intros [(p & Hp & Hj)|(m & d & Hm & Hj)].
  - rewrite (schedule_fp_branch s c j p); [done..|lia].
  - by rewrite (schedule_edf_branch s c m j d).
Qed.

(** ** The ready list *)

(** Activation puts the job behind all jobs already ready, so the order
    of the ready list is the order of activation. *)
Lemma on_activate_appends (s : Sched) (job : Job) :
  on_activate job s
  = Return tt {| ready_list := ready_list s ++ [job];
                 resched_calls := resched_calls s ++ [cpu job];
                 log := log s |}.
Proof. reflexivity. Qed.

Lemma remove_absent (job : Job) (l : list Job) :
  Forall (λ x, jid x ≠ jid job) l →
  remove job l = inl (ValueError "list.remove(x): x not in list").
Proof.
  induction 1 as [|x xs Hx _ IH]; simpl; [done|].
  unfold same_job. destruct (Nat.eqb_spec (jid x) (jid job)); [done|].
  by rewrite IH.
Qed.

Lemma remove_appended (job : Job) (l : list Job) :
  Forall (λ x, jid x ≠ jid job) l →
  remove job (l ++ [job]) = inr l.
Proof.
  induction 1 as [|x xs Hx _ IH]; simpl.
  - unfold same_job. by rewrite Nat.eqb_refl.
  - unfold same_job. destruct (Nat.eqb_spec (jid x) (jid job)); [done|].
    by rewrite IH.
Qed.

(** ** Ties, precedence and frame of [schedule] *)

(** C5, on the code: with [job_A] and [job_B] tied at priority 5 (and
    [job_C] at 127), any number of successive [schedule] calls dispatches
    [job_A] every time; the choice never rotates to [job_B]. *)
Theorem schedule_repeat_never_rotates (n : nat) :
  returned (schedule_repeat n cpu0 (ready [job_A; job_B; job_C]))
  = Some (replicate n (Some (Some job_A, cpu0))).
Proof.
  apply schedule_repeat_stable with (l := [job_A; job_B; job_C]); [|done].
  intros s Hl. apply schedule_first_least. left. exists 5. split; [lia|].
  rewrite Hl. exists [], [job_B; job_C]. repeat split.
  - constructor.
  - repeat constructor.
    + exists 5. split; [reflexivity | lia].
    + exists 127. split; [reflexivity | lia].
Qed.

(** C6: when some ready job has a priority in [1,126], a job returned by
    [schedule] never has priority 127; its priority lies in [1,126]. *)
Theorem schedule_fp_precedence
    (s : Sched) (c c' : Cpu) (j : Job) (s' : Sched) :
  Exists (priority_in 1 126) (ready_list s) →
  schedule c s = Return (Some (Some j, c')) s' →
  data j !! "priority" ≠ Some 127 ∧ priority_in 1 126 j.
Proof.
  intros Hex Hret.
  assert (priority_in 1 126 j) as Hj; [|split; [|done]].
  2:{ destruct Hj as (p & Hp & ?). rewrite Hp. intros [= ->]. lia. }
  apply Exists_exists in Hex as (x & Hx & q & Hq & Hq1 & Hq126).
  destruct (schedule_cases s c) as [Hnil|[(e & He)|(m & p & Hm)]].
  - rewrite Hnil in Hx. by apply elem_of_nil in Hx.
  - by rewrite He in Hret.
  - destruct (first_least_lower_bound _ _ _ _ x Hm Hx) as (q' & Hq' & Hle).
    apply priority_inr in Hq'. simplify_eq.
    destruct (decide (1 ≤ p)) as [Hp|Hp].
    + rewrite (schedule_fp_branch s c m p) in Hret; [|done|lia].
      simplify_eq. exists p. split; [|lia].
      by apply priority_inr, (first_least_key _ _ _ _ Hm).
    + rewrite (schedule_invalid_branch s c m p) in Hret; [done..|lia].
Qed.

Lemma schedule_fp_precedence_witness :
  data job_A !! "priority" ≠ Some 127 ∧ priority_in 1 126 job_A.
Proof.
  apply (schedule_fp_precedence (ready [job_C; job_A; job_B]) cpu0 cpu0 job_A
           (log_append (debug "FP-algorithm!") (ready [job_C; job_A; job_B]))).
  - simpl. apply Exists_cons_tl, Exists_cons_hd.
    exists 5. split; [reflexivity | lia].
  - vm_compute. reflexivity.
Defined.

(** C7: [schedule] never changes the ready list, whatever the state and
    the processor, and whether it returns or raises. *)
Theorem schedule_preserves_ready_list (s : Sched) (c : Cpu) :
  ready_list (final_state (schedule c s)) = ready_list s.
Proof. apply schedule_frame. Qed.

(** C8: [on_terminated] of a job that is not in the ready list raises
    [ValueError], and the state, ready list included, is as before. *)
Theorem on_terminated_absent_raises (s : Sched) (job : Job) :
  Forall (λ x, jid x ≠ jid job) (ready_list s) →
  on_terminated job s
  = Raise (ValueError "list.remove(x): x not in list") s.
Proof.
  intros Habs. unfold on_terminated. run. by rewrite remove_absent.
Qed.

Lemma on_terminated_absent_raises_witness :
  on_terminated job_C (ready [job_A; job_B])
  = Raise (ValueError "list.remove(x): x not in list") (ready [job_A; job_B]).
Proof.
  apply (on_terminated_absent_raises (ready [job_A; job_B]) job_C).
  simpl. repeat constructor; simpl; lia.
Defined.

(** C9: for a job that is not in the ready list, [on_activate] followed at
    once by [on_terminated] returns with the ready list exactly as it was
    before the two calls. *)
Theorem activate_terminate_roundtrip (s : Sched) (j : Job) :
  Forall (λ x, jid x ≠ jid j) (ready_list s) →
  ∃ s', (on_activate j ;; on_terminated j) s = Return tt s' ∧
        ready_list s' = ready_list s.
Proof.
  intros Habs. unfold on_activate, on_terminated. run.
  rewrite remove_appended by done. simpl. eauto.
Qed.

Lemma activate_terminate_roundtrip_witness :
  ∃ s', (on_activate job_C ;; on_terminated job_C) (ready [job_A; job_B])
        = Return tt s' ∧
        ready_list s' = [job_A; job_B].
Proof.
  apply (activate_terminate_roundtrip (ready [job_A; job_B]) job_C).
  simpl. repeat constructor; simpl; lia.
Defined.

(** The earliest job of least key, read off the data of the jobs. *)
Lemma first_least_priority_intro (l1 l2 : list Job) (j : Job) (p : Z) :
  data j !! "priority" = Some p →
  Forall (λ x, ∃ q, data x !! "priority" = Some q ∧ p < q) l1 →
  Forall (λ x, ∃ q, data x !! "priority" = Some q ∧ p ≤ q) l2 →
  first_least priority (l1 ++ j :: l2) j p.
Proof.
  intros Hp H1 H2. exists l1, l2.
  split; [done|]. split; [by apply priority_inr|]. split.
  - eapply Forall_impl; [exact H1|]. intros x (q & Hq & Hlt).
    exists q. split; [by apply priority_inr | done].
  - eapply Forall_impl; [exact H2|]. intros x (q & Hq & Hle).
    exists q. split; [by apply priority_inr | done].
Qed.

Lemma first_least_deadline_intro (l1 l2 : list Job) (j : Job) :
  Forall (λ x, absolute_deadline j < absolute_deadline x) l1 →
  Forall (λ x, absolute_deadline j ≤ absolute_deadline x) l2 →
  first_least deadline (l1 ++ j :: l2) j (absolute_deadline j).
Proof.
  intros H1 H2. exists l1, l2.
  split; [done|]. split; [done|]. split.
  - eapply Forall_impl; [exact H1|]. intros x Hlt.
    by exists (absolute_deadline x).
  - eapply Forall_impl; [exact H2|]. intros x Hle.
    by exists (absolute_deadline x).
Qed.

Lemma least_priority_127 (l : list Job) :
  Exists (priority_in 127 127) l →
  Forall (λ x, ∃ q, data x !! "priority" = Some q ∧ 127 ≤ q) l →
  ∃ m, first_least priority l m 127.
Proof.
  intros (y & Hy & q & Hq & Hq127)%Exists_exists Hall.
  destruct (first_least_exists priority l) as (m & p & Hm).
  { intros ->. by apply elem_of_nil in Hy. }
  { eapply Forall_impl; [exact Hall|]. intros x (k & Hk & _).
    exists k. by apply priority_inr. }
  exists m. replace 127 with p; [done|].
  destruct (first_least_lower_bound _ _ _ _ y Hm Hy) as (q' & Hq' & Hle).
  apply priority_inr in Hq'.
  pose proof (first_least_elem _ _ _ _ Hm) as Hin.
  eapply Forall_forall in Hall as (k & Hk & Hk127); [|exact Hin].
  apply first_least_key, priority_inr in Hm. simplify_eq. lia.
Qed.

(** C10: in either regime the tie is broken by insertion order.  Let [j]
    stand in the ready list behind the jobs [l1] and before the jobs [l2].
    If the priority [p] of [j] is in [1,126], every job of [l1] has a
    priority strictly greater than [p] and every job of [l2] a priority of
    at least [p]; or if the least priority of the ready list is 127, every
    job of [l1] has an absolute deadline strictly later than that of [j]
    and every job of [l2] one that is not earlier; then [schedule] returns
    [j], the earliest of the tied jobs, and so does every one of [n]
    successive calls on the unchanged ready list. *)
Theorem schedule_ties_by_insertion_order
    (s : Sched) (c : Cpu) (l1 l2 : list Job) (j : Job) (n : nat) :
  ready_list s = l1 ++ j :: l2 →
  (∃ p, 1 ≤ p ≤ 126 ∧ data j !! "priority" = Some p ∧
        Forall (λ x, ∃ q, data x !! "priority" = Some q ∧ p < q) l1 ∧
        Forall (λ x, ∃ q, data x !! "priority" = Some q ∧ p ≤ q) l2) ∨
  (Exists (priority_in 127 127) (ready_list s) ∧
   Forall (λ x, ∃ q, data x !! "priority" = Some q ∧ 127 ≤ q) (ready_list s) ∧
   Forall (λ x, absolute_deadline j < absolute_deadline x) l1 ∧
   Forall (λ x, absolute_deadline j ≤ absolute_deadline x) l2) →
  returned (schedule c s) = Some (Some (Some j, c)) ∧
  returned (schedule_repeat n c s) = Some (replicate n (Some (Some j, c))).
Proof.
  intros Hl Hties.
  assert ((∃ p, 1 ≤ p ≤ 126 ∧ first_least priority (ready_list s) j p) ∨
          (∃ m d, first_least priority (ready_list s) m 127 ∧
                  first_least deadline (ready_list s) j d)) as Hj.
  { destruct Hties as [(p & Hp & Hjp & H1 & H2)|(Hex & Hall & H1 & H2)].
    - left. exists p. split; [done|]. rewrite Hl.
      by apply first_least_priority_intro.
    - right. destruct (least_priority_127 _ Hex Hall) as (m & Hm).
      exists m, (absolute_deadline j). split; [done|]. rewrite Hl.
      by apply first_least_deadline_intro. }
  split; [by apply schedule_first_least|].
  apply schedule_repeat_stable with (l := ready_list s); [|done].
  intros s0 Hl0. apply schedule_first_least. by rewrite Hl0.
Qed.

Lemma schedule_ties_by_insertion_order_witness :
  (returned (schedule cpu0 (ready [job_C; job_A; job_B]))
   = Some (Some (Some job_A, cpu0)) ∧
   returned (schedule_repeat 3 cpu0 (ready [job_C; job_A; job_B]))
   = Some (replicate 3 (Some (Some job_A, cpu0)))) ∧
  (returned (schedule cpu0 (ready [job_D; job_E; job_G]))
   = Some (Some (Some job_E, cpu0)) ∧
   returned (schedule_repeat 3 cpu0 (ready [job_D; job_E; job_G]))
   = Some (replicate 3 (Some (Some job_E, cpu0)))).
Proof.
  split.
  - apply (schedule_ties_by_insertion_order
             (ready [job_C; job_A; job_B]) cpu0 [job_C] [job_B] job_A 3).
    + reflexivity.
    + left. exists 5. split; [lia|]. split; [reflexivity|]. split.
      * repeat constructor. exists 127. split; [reflexivity | lia].
      * repeat constructor. exists 5. split; [reflexivity | lia].
  - apply (schedule_ties_by_insertion_order
             (ready [job_D; job_E; job_G]) cpu0 [job_D] [job_G] job_E 3).
    + reflexivity.
    + right. simpl. split; [|split; [|split]].
      * apply Exists_cons_hd. exists 127. split; [reflexivity | lia].
      * repeat constructor; exists 127; (split; [reflexivity | lia]).
      * constructor; [simpl; lia | constructor].
      * constructor; [simpl; lia | constructor].
Defined.

(** ** How [schedule] can end *)

Section min_errors.
Variable key : Job -> Exn + Z.

Lemma min_loop_inl_elem it best bk e :
  min_loop key it best bk = inl e → ∃ x, x ∈ it ∧ key x = inl e.
Proof.
  revert best bk. induction it as [|y ys IH]; intros best bk Hmin; [done|].
  simpl in Hmin. destruct (key y) as [e'|ky] eqn:Hy.
  - exists y. split; [apply elem_of_cons; by left | congruence].
  - destruct (ky <? bk); apply IH in Hmin as (x & Hx & Hkx);
      exists x; (split; [apply elem_of_cons; by right | done]).
Qed.

Lemma min_inl_elem x xs e :
  min (x :: xs) key = inl e → ∃ y, y ∈ x :: xs ∧ key y = inl e.
Proof.
  simpl. destruct (key x) as [e'|kx] eqn:Hx.
  - intros [= ->]. exists x. split; [apply elem_of_cons; by left | done].
  - intros Hmin. apply min_loop_inl_elem in Hmin as (y & Hy & Hky).
    exists y. split; [apply elem_of_cons; by right | done].
Qed.
End min_errors.

Lemma priority_inl x e :
  priority x = inl e ↔ e = KeyError "priority" ∧ data x !! "priority" = None.
Proof.
  unfold priority. destruct (data x !! "priority"); split.
  - intros [=].
  - intros [_ [=]].
  - by intros [= <-].
  - by intros [-> _].
Qed.

Lemma schedule_raise_branch s c e :
  ready_list s ≠ [] → min (ready_list s) priority = inl e →
  schedule c s = Raise e s.
Proof.
  intros Hne Hmin. unfold schedule. run.
  destruct (ready_list s) as [|x xs]; [done|]. by rewrite Hmin.
Qed.

Lemma schedule_outcome_holds (s : Sched) (c : Cpu) :
  schedule_outcome s c (schedule c s).
Proof.
  destruct (ready_list s) as [|x xs] eqn:Hl.
  { rewrite schedule_nil_branch by done. by constructor. }
  destruct (min (ready_list s) priority) as [e|m] eqn:Hmin.
  - rewrite (schedule_raise_branch s c e); [|by rewrite Hl|done].
    rewrite Hl in Hmin. apply min_inl_elem in Hmin as (y & Hy & Hky).
    apply priority_inl in Hky as [-> Hnone].
    apply sched_key_error with y; [by rewrite Hl | done].
  - apply min_inr_first_least in Hmin as (p & Hm).
    destruct (decide (1 ≤ p ≤ 126)) as [Hfp|Hnfp].
    { rewrite (schedule_fp_branch s c m p); [|done|lia]. by apply sched_fp with p. }
    destruct (decide (p = 127)) as [->|Hne].
    { destruct (first_least_exists deadline (ready_list s)) as (j & d & Hj);
        [by rewrite Hl | apply deadline_defined |].
      rewrite (schedule_edf_branch s c m j d) by done.
      by apply sched_edf with m d. }
    rewrite (schedule_invalid_branch s c m p); [|done|lia].
    apply sched_invalid with m; [done|lia].
Qed.

(** The decision is a function of the ready list and the processor: the
    log and the [resched] history play no part. *)
Lemma schedule_returned_ready_list (s1 s2 : Sched) (c : Cpu) :
  ready_list s1 = ready_list s2 →
  returned (schedule c s1) = returned (schedule c s2).
Proof.
  intros Heq.
  destruct (schedule_outcome_holds s1 c) as [Hnil|x Hx Hnone|m p Hm Hp|m j d Hm Hj|m p Hm Hp];
    rewrite Heq in *.
  - by rewrite schedule_nil_branch.
  - destruct (schedule_outcome_holds s2 c) as [Hnil|? ? ?|m p Hm Hp|m j d Hm Hj|m p Hm Hp];
      try done.
    { rewrite Hnil in Hx. by apply elem_of_nil in Hx. }
    all: exfalso.
    all: destruct (first_least_lower_bound _ _ _ _ x Hm Hx) as (q & Hq & _).
    all: apply priority_inr in Hq; congruence.
  - rewrite (schedule_fp_branch s2 c m p); [done..|lia].
  - by rewrite (schedule_edf_branch s2 c m j d).
  - by rewrite (schedule_invalid_branch s2 c m p).
Qed.

Lemma schedule_key_error_branch (s : Sched) (c : Cpu) (x : Job) :
  x ∈ ready_list s → data x !! "priority" = None →
  schedule c s = Raise (KeyError "priority") s.
Proof.
  intros Hx Hnone.
  destruct (schedule_outcome_holds s c) as [Hnil|? ? ?|m p Hm Hp|m j d Hm Hj|m p Hm Hp];
    [|done|exfalso..].
  { rewrite Hnil in Hx. by apply elem_of_nil in Hx. }
  all: destruct (first_least_lower_bound _ _ _ _ x Hm Hx) as (q & Hq & _).
  all: apply priority_inr in Hq; congruence.
Qed.

(** ** Errors and edge cases of [schedule] *)

(** X1: when some ready job has no priority field, [schedule] raises
    [KeyError] for that field and leaves the state, log included, as it
    was, whatever the other jobs are. *)
Theorem schedule_missing_priority_raises (s : Sched) (c : Cpu) :
  Exists (λ x, data x !! "priority" = None) (ready_list s) →
  schedule c s = Raise (KeyError "priority") s.
Proof.
  intros (x & Hx & Hnone)%Exists_exists.
  by apply schedule_key_error_branch with x.
Qed.

Lemma schedule_missing_priority_raises_witness :
  schedule cpu0 (ready [job_A; job_N; job_B])
  = Raise (KeyError "priority") (ready [job_A; job_N; job_B]).
Proof.
  apply (schedule_missing_priority_raises (ready [job_A; job_N; job_B]) cpu0).
  simpl. apply Exists_cons_tl, Exists_cons_hd. reflexivity.
Defined.

(** X2: the only exception [schedule] raises is the [KeyError] of a ready
    job without priority field; in particular the guard on the ready list
    keeps [min] from ever raising [ValueError] on an empty sequence.  The
    state is unchanged when it raises. *)
Theorem schedule_raises_only_KeyError
    (s : Sched) (c : Cpu) (e : Exn) (s' : Sched) :
  schedule c s = Raise e s' →
  e = KeyError "priority" ∧ s' = s ∧
  Exists (λ x, data x !! "priority" = None) (ready_list s).
Proof.
  intros Hraise. pose proof (schedule_outcome_holds s c) as Hout.
  rewrite Hraise in Hout. inversion Hout as [|x Hx Hnone| | |]; subst.
  repeat split. apply Exists_exists. by exists x.
Qed.

Lemma schedule_raises_only_KeyError_witness :
  KeyError "priority" = KeyError "priority" ∧
  ready [job_N] = ready [job_N] ∧
  Exists (λ x, data x !! "priority" = None) [job_N].
Proof.
  apply (schedule_raises_only_KeyError (ready [job_N]) cpu0
           (KeyError "priority") (ready [job_N])).
  reflexivity.
Defined.

(** X3: a couple returned by [schedule c] always carries the asking
    processor [c], whatever the processor the job itself is assigned to,
    and its job, if any, is a member of the ready list. *)
Theorem schedule_decision_sound
    (s : Sched) (c c' : Cpu) (oj : option Job) (s' : Sched) :
  schedule c s = Return (Some (oj, c')) s' →
  c' = c ∧ ∀ j, oj = Some j → j ∈ ready_list s.
Proof.
  intros Hret. pose proof (schedule_outcome_holds s c) as Hout.
  rewrite Hret in Hout.
  inversion Hout as [Hnil| |m p Hm Hp|m j d Hm Hj|]; subst;
    (split; [done|]); intros j' [= <-].
  - by eapply first_least_elem.
  - by eapply first_least_elem.
Qed.

Lemma schedule_decision_sound_witness :
  cpu1 = cpu1 ∧ ∀ j, Some job_A = Some j → j ∈ [job_C; job_A].
Proof.
  apply (schedule_decision_sound (ready [job_C; job_A]) cpu1 cpu1 (Some job_A)
           (log_append (debug "FP-algorithm!") (ready [job_C; job_A]))).
  vm_compute. reflexivity.
Defined.

(** X4: [schedule] returns the idle couple [(None, cpu)] exactly when the
    ready list is empty: with a job ready it never answers "no job" by a
    couple. *)
Theorem schedule_idle_iff_empty (s : Sched) (c : Cpu) :
  (∃ c' s', schedule c s = Return (Some (None, c')) s') ↔ ready_list s = [].
Proof.
  split.
  - intros (c' & s' & Hret). pose proof (schedule_outcome_holds s c) as Hout.
    rewrite Hret in Hout. by inversion Hout.
  - intros Hnil. exists c, s. by apply schedule_nil_branch.
Qed.

(** X5: [schedule] returns [None] only on the invalid-priority path: the
    ready list then has a job whose priority [p] is the least one and lies
    outside [1,127], every ready job has a priority, and exactly one error
    record carrying [p] was logged. *)
Theorem schedule_None_only_if_invalid (s : Sched) (c : Cpu) (s' : Sched) :
  schedule c s = Return None s' →
  ∃ m p, m ∈ ready_list s ∧ data m !! "priority" = Some p ∧
         (p ≤ 0 ∨ 127 < p) ∧
         (∀ x, x ∈ ready_list s → ∃ q, data x !! "priority" = Some q ∧ p ≤ q) ∧
         s' = log_append (error invalid_priority_fmt p) s.
Proof.
  intros Hret. pose proof (schedule_outcome_holds s c) as Hout.
  rewrite Hret in Hout. inversion Hout as [| | | |m p Hm Hp]; subst.
  exists m, p. repeat split; [by eapply first_least_elem| |done|].
  - by apply priority_inr, (first_least_key _ _ _ _ Hm).
  - intros x Hx.
    destruct (first_least_lower_bound _ _ _ _ x Hm Hx) as (q & Hq & Hle).
    exists q. split; [by apply priority_inr | done].
Qed.

Lemma schedule_None_only_if_invalid_witness :
  ∃ m p, m ∈ [job_A; job_F] ∧ data m !! "priority" = Some p ∧
         (p ≤ 0 ∨ 127 < p) ∧
         (∀ x, x ∈ [job_A; job_F] → ∃ q, data x !! "priority" = Some q ∧ p ≤ q) ∧
         log_append (error invalid_priority_fmt 0) (ready [job_A; job_F])
         = log_append (error invalid_priority_fmt p) (ready [job_A; job_F]).
Proof.
  apply (schedule_None_only_if_invalid (ready [job_A; job_F]) cpu0
           (log_append (error invalid_priority_fmt 0) (ready [job_A; job_F]))).
  vm_compute. reflexivity.
Defined.

(** X6: when the least priority of the ready list is 127, the EDF choice
    ranges over all ready jobs: the returned job has the least absolute
    deadline of the whole ready list, so a job whose priority exceeds 127
    is dispatched if its deadline is the earliest. *)
Theorem schedule_edf_over_all_ready_jobs (s : Sched) (c : Cpu) :
  Exists (priority_in 127 127) (ready_list s) →
  Forall (λ x, ∃ q, data x !! "priority" = Some q ∧ 127 ≤ q) (ready_list s) →
  ∃ j s',
    schedule c s = Return (Some (Some j, c)) s' ∧
    j ∈ ready_list s ∧
    ∀ x, x ∈ ready_list s → absolute_deadline j ≤ absolute_deadline x.
Proof.
  intros (y & Hy & q & Hq & Hq127)%Exists_exists Hall.
  assert (ready_list s ≠ []) as Hne.
  { intros Hnil. rewrite Hnil in Hy. by apply elem_of_nil in Hy. }
  destruct (first_least_exists priority (ready_list s)) as (m & p & Hm); [done| |].
  { eapply Forall_impl; [exact Hall|]. intros x (k & Hk & _).
    exists k. by apply priority_inr. }
  assert (p = 127) as ->.
  { destruct (first_least_lower_bound _ _ _ _ y Hm Hy) as (q' & Hq' & Hle).
    apply priority_inr in Hq'.
    pose proof (first_least_elem _ _ _ _ Hm) as Hin.
    eapply Forall_forall in Hall as (k & Hk & Hk127); [|exact Hin].
    apply first_least_key, priority_inr in Hm. simplify_eq. lia. }
  destruct (first_least_exists deadline (ready_list s)) as (j & d & Hj);
    [done | apply deadline_defined |].
  exists j, (log_append (debug "EDF-algorithm!") s).
  split; [by apply schedule_edf_branch with m d|].
  split; [by eapply first_least_elem|].
  intros x Hx.
  pose proof (first_least_key _ _ _ _ Hj) as Hkey.
  destruct (first_least_lower_bound _ _ _ _ x Hj Hx) as (k & Hk & Hle).
  unfold deadline in *. by simplify_eq.
Qed.

Lemma schedule_edf_over_all_ready_jobs_witness :
  ∃ j s',
    schedule cpu0 (ready [job_D; job_H]) = Return (Some (Some j, cpu0)) s' ∧
    j ∈ [job_D; job_H] ∧
    ∀ x, x ∈ [job_D; job_H] → absolute_deadline j ≤ absolute_deadline x.
Proof.
  apply (schedule_edf_over_all_ready_jobs (ready [job_D; job_H]) cpu0).
  - simpl. apply Exists_cons_hd. exists 127. split; [reflexivity | lia].
  - simpl. repeat constructor.
    + exists 127. split; [reflexivity | lia].
    + exists 200. split; [reflexivity | lia].
Defined.

(** The job of priority 200 is the one dispatched there. *)
Example schedule_DH :
  returned (schedule cpu0 (ready [job_D; job_H])) = Some (Some (Some job_H, cpu0)).
Proof. vm_compute. reflexivity. Qed.

(** X7: one ready job with a priority below 1 stops all dispatching: if
    every ready job has a priority field, [schedule] returns [None] and
    the only change of state is one error record carrying the least
    priority [p] of the ready list, which is the priority of a ready job,
    not greater than that of any ready job, hence below 1; this however
    many ready jobs have a valid priority. *)
Theorem schedule_nonpositive_priority_blocks
    (s : Sched) (c : Cpu) (x : Job) (q : Z) :
  x ∈ ready_list s →
  data x !! "priority" = Some q →
  q ≤ 0 →
  Forall (λ y, is_Some (data y !! "priority")) (ready_list s) →
  ∃ m p, m ∈ ready_list s ∧ data m !! "priority" = Some p ∧
         (∀ y k, y ∈ ready_list s → data y !! "priority" = Some k → p ≤ k) ∧
         p ≤ q ∧
         schedule c s
         = Return None (log_append (error invalid_priority_fmt p) s).
Proof.
  intros Hx Hq Hq0 Hall.
  destruct (first_least_exists priority (ready_list s)) as (m & p & Hm).
  { intros Hnil. rewrite Hnil in Hx. by apply elem_of_nil in Hx. }
  { eapply Forall_impl; [exact Hall|]. intros y [k Hk].
    exists k. by apply priority_inr. }
  assert (∀ y k, y ∈ ready_list s → data y !! "priority" = Some k → p ≤ k)
    as Hleast.
  { intros y k Hy Hk.
    destruct (first_least_lower_bound _ _ _ _ y Hm Hy) as (k' & Hk' & Hle).
    apply priority_inr in Hk'. by simplify_eq. }
  pose proof (Hleast x q Hx Hq) as Hpq.
  exists m, p. split; [by eapply first_least_elem|].
  split; [by apply priority_inr, (first_least_key _ _ _ _ Hm)|].
  split; [done|]. split; [done|].
  apply schedule_invalid_branch with m; [done|lia].
Qed.

Lemma schedule_nonpositive_priority_blocks_witness :
  ∃ m p, m ∈ [job_A; job_F; job_C] ∧ data m !! "priority" = Some p ∧
         (∀ y k, y ∈ [job_A; job_F; job_C] →
                 data y !! "priority" = Some k → p ≤ k) ∧
         p ≤ 0 ∧
         schedule cpu0 (ready [job_A; job_F; job_C])
         = Return None (log_append (error invalid_priority_fmt p)
                          (ready [job_A; job_F; job_C])).
Proof.
  apply (schedule_nonpositive_priority_blocks
           (ready [job_A; job_F; job_C]) cpu0 job_F 0).
  - simpl. apply elem_of_cons. right. apply elem_of_cons. by left.
  - reflexivity.
  - lia.
  - simpl. repeat constructor; eexists; reflexivity.
Defined.

(** X8: [schedule] never asks for a reschedule, and it appends at most one
    record to the log, whether it returns or raises. *)
Theorem schedule_effects (s : Sched) (c : Cpu) :
  resched_calls (final_state (schedule c s)) = resched_calls s ∧
  ∃ rs, log (final_state (schedule c s)) = log s ++ rs ∧ (length rs ≤ 1)%nat.
Proof.
  split; [apply schedule_frame|].
  destruct (schedule_outcome_holds s c); simpl.
  1,2: exists []; split; [by rewrite app_nil_r | simpl; lia].
  all: eexists [_]; split; [reflexivity | simpl; lia].
Qed.

(** X9: the job of the decision does not depend on the asking processor,
    nor on the log or the [resched] history: two states with the same
    ready list give every processor the same job. *)
Theorem schedule_job_independent_of_cpu (s1 s2 : Sched) (c1 c2 : Cpu) :
  ready_list s1 = ready_list s2 →
  decision_job <$> returned (schedule c1 s1)
  = decision_job <$> returned (schedule c2 s2).
Proof.
  intros Heq. rewrite (schedule_returned_ready_list s1 s2 c1 Heq).
  destruct (schedule_outcome_holds s2 c1) as [Hnil|x Hx Hnone|m p Hm Hp|m j d Hm Hj|m p Hm Hp].
  - by rewrite schedule_nil_branch.
  - by rewrite (schedule_key_error_branch s2 c2 x).
  - rewrite (schedule_fp_branch s2 c2 m p); [done..|lia].
  - by rewrite (schedule_edf_branch s2 c2 m j d).
  - by rewrite (schedule_invalid_branch s2 c2 m p).
Qed.

Lemma schedule_job_independent_of_cpu_witness :
  decision_job <$> returned (schedule cpu0 (ready [job_A; job_B]))
  = decision_job <$> returned
      (schedule cpu1 (mkSched [job_A; job_B] [cpu0] [debug "FP-algorithm!"])).
Proof.
  apply (schedule_job_independent_of_cpu (ready [job_A; job_B])
           (mkSched [job_A; job_B] [cpu0] [debug "FP-algorithm!"]) cpu0 cpu1).
  reflexivity.
Defined.

(** X10: successive [schedule] calls with no activation or termination in
    between all return the decision of the first one, whichever it is: a
    job, the idle couple, or [None] on the invalid-priority path. *)
Theorem schedule_repeat_same_decision
    (s : Sched) (c : Cpu) (d : Decision) (n : nat) :
  returned (schedule c s) = Some d →
  returned (schedule_repeat n c s) = Some (replicate n d).
Proof.
  intros Hd. apply schedule_repeat_stable with (l := ready_list s); [|done].
  intros s0 Hl. by rewrite (schedule_returned_ready_list s0 s c Hl).
Qed.

Lemma schedule_repeat_same_decision_witness :
  returned (schedule_repeat 3 cpu0 (ready [job_A; job_F]))
  = Some (replicate 3 None).
Proof.
  apply (schedule_repeat_same_decision (ready [job_A; job_F]) cpu0 None 3).
  vm_compute. reflexivity.
Defined.

(** ** More on [list.remove] and on the first job of least key *)

Lemma remove_first (job : Job) (l1 : list Job) (x : Job) (l2 : list Job) :
  jid x = jid job → Forall (λ y, jid y ≠ jid job) l1 →
  remove job (l1 ++ x :: l2) = inr (l1 ++ l2).
Proof.
  intros Hx. induction 1 as [|y ys Hy _ IH]; simpl; unfold same_job.
  - by rewrite Hx, Nat.eqb_refl.
  - destruct (Nat.eqb_spec (jid y) (jid job)); [done|]. by rewrite IH.
Qed.

Lemma present_split (job : Job) (l : list Job) :
  Exists (λ x, jid x = jid job) l →
  ∃ l1 x l2, l = l1 ++ x :: l2 ∧ jid x = jid job ∧
             Forall (λ y, jid y ≠ jid job) l1.
Proof.
  induction l as [|y ys IH]; intros Hex; [by apply Exists_nil in Hex|].
  destruct (decide (jid y = jid job)) as [Heq|Hne].
  - by exists [], y, ys.
  - apply Exists_cons in Hex as [Hy|Hys]; [done|].
    destruct (IH Hys) as (l1 & x & l2 & -> & Hx & Hl1).
    exists (y :: l1), x, l2. repeat split; [done|]. by constructor.
Qed.

Lemma remove_inr_inv (job : Job) (l l' : list Job) :
  remove job l = inr l' →
  ∃ l1 x l2, l = l1 ++ x :: l2 ∧ jid x = jid job ∧
             Forall (λ y, jid y ≠ jid job) l1 ∧ l' = l1 ++ l2.
Proof.
  revert l'. induction l as [|y ys IH]; intros l' Hrem; [done|].
  simpl in Hrem. unfold same_job in Hrem.
  destruct (Nat.eqb_spec (jid y) (jid job)) as [Heq|Hne].
  - injection Hrem as <-. by exists [], y, ys.
  - destruct (remove job ys) as [e|ys'] eqn:Hys; [done|].
    injection Hrem as <-.
    destruct (IH ys' eq_refl) as (l1 & x & l2 & -> & Hx & Hl1 & ->).
    exists (y :: l1), x, l2. repeat split; [done|]. by constructor.
Qed.

Lemma remove_Forall (P : Job → Prop) (job : Job) (l l' : list Job) :
  remove job l = inr l' → Forall P l → Forall P l'.
Proof.
  intros (l1 & x & l2 & -> & _ & _ & ->)%remove_inr_inv Hall.
  apply Forall_app in Hall as [H1 H2]. apply Forall_cons in H2 as [_ H2].
  apply Forall_app. by split.
Qed.

Lemma NoDup_ids_drop (l1 : list Job) (x : Job) (l2 : list Job) :
  NoDup (jid <$> l1 ++ x :: l2) → NoDup (jid <$> l1 ++ l2).
Proof.
  rewrite !fmap_app, fmap_cons, !NoDup_app, NoDup_cons.
  intros (H1 & Hdisj & _ & H2). repeat split; [done| |done].
  intros i Hi Hi2. apply (Hdisj i Hi). apply elem_of_cons. by right.
Qed.

Lemma filter_other_ids (job : Job) (l : list Job) :
  Forall (λ y, jid y ≠ jid job) l →
  filter (λ y, jid y ≠ jid job) l = l.
Proof.
  induction 1 as [|y ys Hy _ IH]; [done|].
  rewrite filter_cons_True by done. by rewrite IH.
Qed.

Section first_least_updates.
Variable key : Job -> Exn + Z.

Lemma first_least_app_ge l m k x :
  first_least key l m k → key_ge key k x → first_least key (l ++ [x]) m k.
Proof.
  intros (l1 & l2 & -> & Hm & H1 & H2) Hx.
  exists l1, (l2 ++ [x]). rewrite <- app_assoc. repeat split; [done..|].
  apply Forall_app. split; [done|]. by constructor.
Qed.

Lemma first_least_app_new l x k :
  key x = inr k → Forall (key_gt key k) l → first_least key (l ++ [x]) x k.
Proof. intros Hx Hl. exists l, []. by repeat split. Qed.

Lemma first_least_remove job l l' m k :
  first_least key l m k → jid m ≠ jid job → remove job l = inr l' →
  first_least key l' m k.
Proof.
  intros (l1 & l2 & -> & Hm & H1 & H2) Hne. revert l'.
  induction H1 as [|y ys Hy H1 IH]; intros l' Hrem;
    simpl in Hrem; unfold same_job in Hrem.
  - destruct (Nat.eqb_spec (jid m) (jid job)); [done|].
    destruct (remove job l2) as [e|l0] eqn:Hl2; [done|].
    injection Hrem as <-. exists [], l0. repeat split; [done..|].
    by eapply remove_Forall.
  - destruct (Nat.eqb_spec (jid y) (jid job)).
    + injection Hrem as <-. by exists ys, l2.
    + destruct (remove job (ys ++ m :: l2)) as [e|l0] eqn:Hl0; [done|].
      injection Hrem as <-.
      destruct (IH l0 eq_refl) as (l1' & l2' & -> & _ & H1' & H2').
      exists (y :: l1'), l2'. repeat split; [done| |done]. by constructor.
Qed.
End first_least_updates.

(** ** The life of the ready list *)

Lemma on_terminated_present_branch
    (s : Sched) (job x : Job) (l1 l2 : list Job) :
  ready_list s = l1 ++ x :: l2 →
  jid x = jid job →
  Forall (λ y, jid y ≠ jid job) l1 →
  on_terminated job s
  = Return tt {| ready_list := l1 ++ l2;
                 resched_calls := resched_calls s ++ [cpu job];
                 log := log s |}.
Proof.
  intros Hl Hx Hl1. unfold on_terminated. run.
  rewrite Hl, remove_first by done. done.
Qed.

(** X11: [on_terminated] of a ready job returns, drops the first occurrence
    of the job and nothing else from the ready list, keeps the order of
    the other jobs, and asks for exactly one reschedule, on the processor
    of the job; the log is untouched. *)
Theorem on_terminated_removes_first_occurrence
    (s : Sched) (job x : Job) (l1 l2 : list Job) :
  ready_list s = l1 ++ x :: l2 →
  jid x = jid job →
  Forall (λ y, jid y ≠ jid job) l1 →
  on_terminated job s
  = Return tt {| ready_list := l1 ++ l2;
                 resched_calls := resched_calls s ++ [cpu job];
                 log := log s |}.
Proof. apply on_terminated_present_branch. Qed.

Lemma on_terminated_removes_first_occurrence_witness :
  on_terminated job_B (ready [job_A; job_B; job_C])
  = Return tt {| ready_list := [job_A] ++ [job_C];
                 resched_calls := [] ++ [cpu0];
                 log := [] |}.
Proof.
  apply (on_terminated_removes_first_occurrence
           (ready [job_A; job_B; job_C]) job_B job_B [job_A] [job_C]).
  - reflexivity.
  - reflexivity.
  - repeat constructor. simpl. lia.
Defined.

(** X12: when no job occurs twice in the ready list, [on_terminated] of a
    ready job leaves exactly the other jobs, in their order: the job is no
    longer ready afterwards. *)
Theorem on_terminated_removes_job (s : Sched) (job : Job) :
  NoDup (jid <$> ready_list s) →
  Exists (λ x, jid x = jid job) (ready_list s) →
  ∃ s', on_terminated job s = Return tt s' ∧
        ready_list s' = filter (λ y, jid y ≠ jid job) (ready_list s).
Proof.
  intros Hnd (l1 & x & l2 & Hl & Hx & Hl1)%present_split.
  eexists. split; [by apply on_terminated_present_branch with x|].
  simpl. rewrite Hl in *.
  rewrite filter_app, filter_cons_False by (intros Hne; by apply Hne).
  rewrite !filter_other_ids; [done| |done].
  apply Forall_forall. intros y Hy Heq.
  rewrite fmap_app, fmap_cons in Hnd.
  apply NoDup_app in Hnd as (_ & _ & Hnd). apply NoDup_cons in Hnd as [Hnotin _].
  apply Hnotin. rewrite Hx, <- Heq. by apply list_elem_of_fmap_2.
Qed.

Lemma on_terminated_removes_job_witness :
  ∃ s', on_terminated job_A (ready [job_A; job_B; job_C]) = Return tt s' ∧
        ready_list s'
        = filter (λ y, jid y ≠ jid job_A) [job_A; job_B; job_C].
Proof.
  apply (on_terminated_removes_job (ready [job_A; job_B; job_C]) job_A).
  - simpl. repeat constructor; rewrite ?elem_of_cons, ?elem_of_nil; lia.
  - simpl. apply Exists_cons_hd. reflexivity.
Defined.

(** X13: [on_terminated] keeps the ready list free of duplicates, whether
    it returns or raises. *)
Theorem on_terminated_preserves_NoDup (s : Sched) (job : Job) :
  NoDup (jid <$> ready_list s) →
  NoDup (jid <$> ready_list (final_state (on_terminated job s))).
Proof.
  intros Hnd. unfold on_terminated. run.
  destruct (remove job (ready_list s)) as [e|l'] eqn:Hrem; simpl; [done|].
  apply remove_inr_inv in Hrem as (l1 & x & l2 & Hl & _ & _ & ->).
  rewrite Hl in Hnd. by apply NoDup_ids_drop with x.
Qed.

Lemma on_terminated_preserves_NoDup_witness :
  NoDup (jid <$> ready_list
           (final_state (on_terminated job_B (ready [job_A; job_B; job_C])))).
Proof.
  apply (on_terminated_preserves_NoDup (ready [job_A; job_B; job_C]) job_B).
  simpl. repeat constructor; rewrite ?elem_of_cons, ?elem_of_nil; lia.
Defined.

(** X14: [on_activate] never raises and performs no check.  It keeps the
    ready list free of duplicates exactly when the activated job is not
    already in it: activating a ready job a second time stores it
    twice. *)
Theorem on_activate_NoDup_iff_absent (s : Sched) (job : Job) :
  NoDup (jid <$> ready_list s) →
  ∃ s', on_activate job s = Return tt s' ∧
        (NoDup (jid <$> ready_list s') ↔
         Forall (λ x, jid x ≠ jid job) (ready_list s)).
Proof.
  intros Hnd. eexists. split; [reflexivity|]. simpl.
  rewrite fmap_app, NoDup_app. simpl. split.
  - intros (_ & Hdisj & _). apply Forall_forall. intros x Hx Heq.
    apply (Hdisj (jid x)); [by apply list_elem_of_fmap_2|].
    rewrite Heq. apply elem_of_cons. by left.
  - intros Habs. split; [done|]. split.
    + intros i (x & Hi & Hx)%list_elem_of_fmap Hj%list_elem_of_singleton.
      eapply Forall_forall in Habs; [|exact Hx]. congruence.
    + apply NoDup_singleton.
Qed.

Lemma on_activate_NoDup_iff_absent_witness :
  ∃ s', on_activate job_A (ready [job_A; job_B]) = Return tt s' ∧
        (NoDup (jid <$> ready_list s') ↔
         Forall (λ x, jid x ≠ jid job_A) [job_A; job_B]).
Proof.
  apply (on_activate_NoDup_iff_absent (ready [job_A; job_B]) job_A).
  simpl. repeat constructor; rewrite ?elem_of_cons, ?elem_of_nil; lia.
Defined.

(** X15: a job activated twice and terminated once is still in the ready
    list: [on_terminated] drops one occurrence only, and nothing rejected
    the second activation. *)
Theorem double_activation_leaves_job_ready (s : Sched) (j : Job) :
  ∃ s', (on_activate j ;; on_activate j ;; on_terminated j) s = Return tt s' ∧
        j ∈ ready_list s'.
Proof.
  destruct (present_split j (ready_list s ++ [j])) as (l1 & x & l2 & Hl & Hx & Hl1).
  { apply Exists_app. right. by apply Exists_cons_hd. }
  unfold on_activate at 1 2. run.
  rewrite (on_terminated_present_branch _ j x l1 (l2 ++ [j])); [|simpl|done..].
  - eexists. split; [reflexivity|]. simpl.
    rewrite !elem_of_app, list_elem_of_singleton. by right; right.
  - by rewrite Hl, <- app_assoc.
Qed.

(** X16: [init] empties the ready list whatever it held: right after it
    [schedule] returns the idle couple for every processor and
    [on_terminated] of any job raises [ValueError]; the log and the
    [resched] history are kept. *)
Theorem init_resets_ready_list (s : Sched) (c : Cpu) (job : Job) :
  let s0 := {| ready_list := []; resched_calls := resched_calls s;
               log := log s |} in
  (init ;; schedule c) s = Return (Some (None, c)) s0 ∧
  (init ;; on_terminated job) s
  = Raise (ValueError "list.remove(x): x not in list") s0.
Proof. by split. Qed.

(** ** Activation, termination and the next decision *)

Lemma on_activate_then (A : Type) (job : Job) (k : M A) (s : Sched) :
  (on_activate job ;; k) s
  = k {| ready_list := ready_list s ++ [job];
         resched_calls := resched_calls s ++ [cpu job];
         log := log s |}.
Proof. reflexivity. Qed.

(** X17: under fixed priorities a newly activated job whose priority value
    is not smaller than the least one does not change the decision: the
    job dispatched before is dispatched again, also when the new job ties
    with it. *)
Theorem activation_of_no_more_urgent_job_keeps_decision
    (s : Sched) (c : Cpu) (j x : Job) (p q : Z) :
  first_least priority (ready_list s) j p →
  1 ≤ p ≤ 126 →
  data x !! "priority" = Some q →
  p ≤ q →
  returned ((on_activate x ;; schedule c) s) = Some (Some (Some j, c)).
Proof.
  intros Hj Hp Hq Hle. rewrite on_activate_then.
  apply schedule_first_least. left. exists p. split; [done|]. simpl.
  apply first_least_app_ge; [done|].
  exists q. split; [by apply priority_inr | done].
Qed.

Lemma activation_of_no_more_urgent_job_keeps_decision_witness :
  returned ((on_activate job_B ;; schedule cpu0) (ready [job_C; job_A]))
  = Some (Some (Some job_A, cpu0)).
Proof.
  apply (activation_of_no_more_urgent_job_keeps_decision
           (ready [job_C; job_A]) cpu0 job_A job_B 5 5).
  - exists [job_C], []. repeat split.
    + repeat constructor. exists 127. split; [reflexivity | lia].
    + constructor.
  - lia.
  - reflexivity.
  - lia.
Defined.

(** X18: a newly activated job with a priority in [1,126] that is strictly
    smaller than the priority of every ready job is the one dispatched by
    the next [schedule], whatever regime the ready list was in before. *)
Theorem activation_of_more_urgent_job_preempts
    (s : Sched) (c : Cpu) (x : Job) (q : Z) :
  data x !! "priority" = Some q →
  1 ≤ q ≤ 126 →
  Forall (λ y, ∃ p, data y !! "priority" = Some p ∧ q < p) (ready_list s) →
  returned ((on_activate x ;; schedule c) s) = Some (Some (Some x, c)).
Proof.
  intros Hq Hq1 Hall. rewrite on_activate_then.
  apply schedule_first_least. left. exists q. split; [done|]. simpl.
  apply first_least_app_new; [by apply priority_inr|].
  eapply Forall_impl; [exact Hall|]. intros y (p & Hp & Hlt).
  exists p. split; [by apply priority_inr | done].
Qed.

Lemma activation_of_more_urgent_job_preempts_witness :
  returned ((on_activate job_A ;; schedule cpu0) (ready [job_D; job_E]))
  = Some (Some (Some job_A, cpu0)).
Proof.
  apply (activation_of_more_urgent_job_preempts (ready [job_D; job_E]) cpu0 job_A 5).
  - reflexivity.
  - lia.
  - simpl. repeat constructor; exists 127; (split; [reflexivity | lia]).
Defined.

(** X19: when the least priority is 127, a newly activated job with a
    priority of at least 127 and an absolute deadline earlier than that of
    every ready job is the one dispatched by the next [schedule]. *)
Theorem activation_of_earlier_deadline_preempts
    (s : Sched) (c : Cpu) (m x : Job) (q : Z) :
  first_least priority (ready_list s) m 127 →
  data x !! "priority" = Some q →
  127 ≤ q →
  Forall (λ y, absolute_deadline x < absolute_deadline y) (ready_list s) →
  returned ((on_activate x ;; schedule c) s) = Some (Some (Some x, c)).
Proof.
  intros Hm Hq Hq127 Hall. rewrite on_activate_then.
  apply schedule_first_least. right. exists m, (absolute_deadline x). simpl.
  split.
  - apply first_least_app_ge; [done|].
    exists q. split; [by apply priority_inr | done].
  - apply first_least_app_new; [done|].
    eapply Forall_impl; [exact Hall|]. intros y Hlt.
    by exists (absolute_deadline y).
Qed.

Lemma activation_of_earlier_deadline_preempts_witness :
  returned ((on_activate job_C ;; schedule cpu0) (ready [job_D; job_E]))
  = Some (Some (Some job_C, cpu0)).
Proof.
  apply (activation_of_earlier_deadline_preempts
           (ready [job_D; job_E]) cpu0 job_D job_C 127).
  - exists [], [job_E]. repeat split.
    + constructor.
    + repeat constructor. exists 127. split; [reflexivity | lia].
  - reflexivity.
  - lia.
  - simpl. repeat constructor; simpl; lia.
Defined.

(** X20: under fixed priorities the termination of a ready job other than
    the dispatched one does not change the decision. *)
Theorem termination_of_other_job_keeps_decision
    (s : Sched) (c : Cpu) (j x : Job) (p : Z) :
  first_least priority (ready_list s) j p →
  1 ≤ p ≤ 126 →
  jid j ≠ jid x →
  Exists (λ y, jid y = jid x) (ready_list s) →
  returned ((on_terminated x ;; schedule c) s) = Some (Some (Some j, c)).
Proof.
  intros Hj Hp Hne (l1 & y & l2 & Hl & Hy & Hl1)%present_split.
  unfold mbind at 1, M_bind at 1.
  rewrite (on_terminated_present_branch s x y l1 l2) by done.
  apply schedule_first_least. left. exists p. split; [done|]. simpl.
  apply (first_least_remove priority x (ready_list s)); [done..|].
  rewrite Hl. by apply remove_first.
Qed.

Lemma termination_of_other_job_keeps_decision_witness :
  returned ((on_terminated job_B ;; schedule cpu0) (ready [job_A; job_B; job_C]))
  = Some (Some (Some job_A, cpu0)).
Proof.
  apply (termination_of_other_job_keeps_decision
           (ready [job_A; job_B; job_C]) cpu0 job_A job_B 5).
  - exists [], [job_B; job_C]. repeat split.
    + constructor.
    + repeat constructor.
      * exists 5. split; [reflexivity | lia].
      * exists 127. split; [reflexivity | lia].
  - lia.
  - simpl. lia.
  - simpl. apply Exists_cons_tl, Exists_cons_hd. reflexivity.
Defined.
